(** * MapOps: the map helpers of [src/map.ts]

    A shallow embedding of the five exported functions of [src/map.ts]
    ([transformMap], [filterMap], [transformMapAsync], [allSettledMap],
    [getOrDefault]) together with the fragment of the JavaScript runtime
    they rely on: the insertion-ordered [Map], [Array.from] with a mapping
    callback, [Array.prototype.filter], promises, [Promise.all],
    [Promise.allSettled], [async] functions and [await]. *)

From stdpp Require Import base tactics option list strings.

(** ** The JavaScript [Map]

    A [Map] keeps its entries in insertion order and its keys unique.  It is
    modelled by the list of its entries, in iteration order; key equality
    (SameValueZero in the runtime) is decidable equality on [K]. *)

Section JSMap.
Context {K : Type} `{EqDecision K}.

(** [map.set(key, value)]: an existing key keeps its position and gets the
    new value, a new key is appended. *)
Fixpoint Map_set {V} (m : list (K * V)) (key : K) (value : V) : list (K * V) :=
  match m with
  | [] => [(key, value)]
  | (k, v) :: m' =>
      if decide (k = key) then (k, value) :: m'
      else (k, v) :: Map_set m' key value
  end.

(** [map.has(key)]. *)
Fixpoint Map_has {V} (m : list (K * V)) (key : K) : bool :=
  match m with
  | [] => false
  | (k, _) :: m' => if decide (k = key) then true else Map_has m' key
  end.

(** [map.get(key)]; [None] is the [undefined] returned for a missing key. *)
Fixpoint Map_get {V} (m : list (K * V)) (key : K) : option V :=
  match m with
  | [] => None
  | (k, v) :: m' => if decide (k = key) then Some v else Map_get m' key
  end.

(** [map.keys()] in iteration order. *)
Definition Map_keys {V} (m : list (K * V)) : list K := m.*1.

(** [new Map(iterable)]: the pairs are [set] one after the other. *)
Definition Map_new {V} (pairs : list (K * V)) : list (K * V) :=
  foldl (λ m '(k, v), Map_set m k v) [] pairs.

(** The representation invariant of a [Map]: no key occurs twice. *)
Definition Map_wf {V} (m : list (K * V)) : Prop := NoDup (Map_keys m).
End JSMap.

(** ** Computations

    A synchronous piece of JavaScript is a state transformer over the
    [world] that may complete normally or throw.  The world holds the [Map]
    object the functions receive (it is shared with the caller, who may keep
    a mutable reference to it) and the state [W] that the caller's callbacks
    read and write. *)

Inductive completion (E A : Type) : Type :=
  | Normal (a : A)
  | Throw (e : E).
Arguments Normal {E A} a.
Arguments Throw {E A} e.

Record world (K V W : Type) : Type :=
  World { map_obj : list (K * V); user : W }.
Arguments World {K V W} map_obj user.
Arguments map_obj {K V W} w.
Arguments user {K V W} w.

Definition JS (K V W E A : Type) : Type :=
  world K V W → world K V W * completion E A.

Definition JS_ret {K V W E A} (a : A) : JS K V W E A := λ w, (w, Normal a).

Definition JS_bind {K V W E A B}
    (f : A → JS K V W E B) (c : JS K V W E A) : JS K V W E B :=
  λ w, match c w with
       | (w', Normal a) => f a w'
       | (w', Throw e) => (w', Throw e)
       end.

Global Instance JS_mret {K V W E} : MRet (JS K V W E) := @JS_ret K V W E.
Global Instance JS_mbind {K V W E} : MBind (JS K V W E) := @JS_bind K V W E.

(** A caller-supplied callback: it sees and changes the caller's state only,
    never the [Map] object, and completes normally or throws.  Since no
    callback changes the map while it is being iterated, traversing the live
    iterator [map.entries()] and traversing the list of entries read at the
    start of the traversal visit the same entries. *)
Definition callback (W E A : Type) : Type := W → W * completion E A.

(** A callback that has no effect and never throws. *)
Definition total {W E A} (a : A) : callback W E A := λ u, (u, Normal a).

Section Sync.
Context {K V W E : Type} `{EqDecision K}.

Local Abbreviation JS := (JS K V W E).

(** Calling a callback from library code. *)
Definition call {A} (f : callback W E A) : JS A :=
  λ w, let '(u, c) := f (user w) in (World (map_obj w) u, c).

(** The methods of the [Map] object held in the world. *)
Definition entries : JS (list (K * V)) := λ w, (w, Normal (map_obj w)).
Definition keys : JS (list K) := λ w, (w, Normal (Map_keys (map_obj w))).
Definition has (key : K) : JS bool := λ w, (w, Normal (Map_has (map_obj w) key)).
Definition get (key : K) : JS (option V) :=
  λ w, (w, Normal (Map_get (map_obj w) key)).
Definition set (key : K) (value : V) : JS unit :=
  λ w, (World (Map_set (map_obj w) key value) (user w), Normal tt).

(** [Array.from(items, mapFn)]: [mapFn] is applied to the items from left
    to right; a throw ends the traversal. *)
Fixpoint Array_from {A B} (items : list A) (mapFn : A → JS B) : JS (list B) :=
  match items with
  | [] => mret []
  | x :: items' =>
      y ← mapFn x;
      ys ← Array_from items' mapFn;
      mret (y :: ys)
  end.

(** [items.filter(predicate)]. *)
Fixpoint Array_filter {A} (items : list A) (predicate : A → JS bool) : JS (list A) :=
  match items with
  | [] => mret []
  | x :: items' =>
      keep ← predicate x;
      rest ← Array_filter items' predicate;
      mret (if (keep : bool) then x :: rest else rest)
  end.

(** [transformMap(map, transform)], lines 6-15. *)
Definition transformMap {R} (transform : V → K → callback W E R)
    : JS (list (K * R)) :=
  es ← entries;
  pairs ← Array_from es (λ '((key, value) : K * V),
             r ← call (transform value key); mret (key, r));
  mret (Map_new pairs).

(** [filterMap(map, predicate)], lines 31-38. *)
Definition filterMap (predicate : V → K → callback W E bool)
    : JS (list (K * V)) :=
  es ← entries;
  kept ← Array_filter es (λ '((key, value) : K * V),
            call (predicate value key));
  mret (Map_new kept).

(** [getOrDefault(map, key, defaultValue)], lines 78-87.  The non-null
    assertion [!] is erased at run time: the function returns what
    [map.get] returns. *)
Definition getOrDefault (key : K) (defaultValue : V) : JS (option V) :=
  present ← has key;
  (if negb present then set key defaultValue else mret tt);;
  get key.
End Sync.

(** ** Promises

    A promise is described by the outcome it settles with and by the logical
    time at which it settles; the times of a batch of promises give their
    completion order.  Only promises that settle are represented: a promise
    that stays pending for ever has no counterpart here, and every statement
    below about a transform is about one whose promises settle. *)

Inductive PromiseSettledResult (E A : Type) : Type :=
  | fulfilled (value : A)
  | rejected (reason : E).
Arguments fulfilled {E A} value.
Arguments rejected {E A} reason.

Record Promise (E A : Type) : Type :=
  MkPromise { settles_at : nat; outcome : PromiseSettledResult E A }.
Arguments MkPromise {E A} settles_at outcome.
Arguments settles_at {E A} p.
Arguments outcome {E A} p.

(** [MaybePromise<T> = T | PromiseLike<T>], line 1. *)
Inductive MaybePromise (E A : Type) : Type :=
  | Plain (a : A)
  | Thenable (p : Promise E A).
Arguments Plain {E A} a.
Arguments Thenable {E A} p.

Section Promises.
Context {E : Type}.

(** [Promise.resolve(x)]: a plain value is an already fulfilled promise. *)
Definition Promise_resolve {A} (x : MaybePromise E A) : Promise E A :=
  match x with
  | Plain a => MkPromise 0 (fulfilled a)
  | Thenable p => p
  end.

(** The conversion of the completion of an [async] body into the outcome
    of the promise the function returned. *)
Definition settle {A} (c : completion E A) : PromiseSettledResult E A :=
  match c with
  | Normal a => fulfilled a
  | Throw e => rejected e
  end.

Definition value_of {A} (p : Promise E A) : option A :=
  match outcome p with
  | fulfilled a => Some a
  | rejected _ => None
  end.

(** The rejection that a fail-fast join observes first: the one that
    settles earliest, the leftmost one among those of equal time. *)
Fixpoint first_rejection {A} (ps : list (Promise E A)) : option (nat * E) :=
  match ps with
  | [] => None
  | p :: ps' =>
      match outcome p, first_rejection ps' with
      | fulfilled _, later => later
      | rejected e, Some (t, e') =>
          if decide (t < settles_at p) then Some (t, e')
          else Some (settles_at p, e)
      | rejected e, None => Some (settles_at p, e)
      end
  end.

(** [Promise.all(ps)]: rejected with the first rejection, otherwise
    fulfilled with the values in the order of [ps]. *)
Definition Promise_all {A} (ps : list (Promise E A)) : Promise E (list A) :=
  match first_rejection ps with
  | Some (t, e) => MkPromise t (rejected e)
  | None => MkPromise (max_list (settles_at <$> ps))
                      (fulfilled (omap value_of ps))
  end.

(** [Promise.allSettled(xs)]: always fulfilled, with one outcome record
    per element, in the order of [xs]. *)
Definition Promise_allSettled {A} (xs : list (MaybePromise E A))
    : Promise E (list (PromiseSettledResult E A)) :=
  MkPromise (max_list (settles_at ∘ Promise_resolve <$> xs))
            (fulfilled (outcome ∘ Promise_resolve <$> xs)).
End Promises.

(** ** The asynchronous functions *)

Section Async.
Context {K V W E : Type} `{EqDecision K}.

(** What the rest of the program does to the world while an [async]
    function of this module is suspended at an [await]. *)
Variable env : world K V W → world K V W.

Local Abbreviation JS := (JS K V W E).

(** [await p] in the body of the exported functions: the function is
    suspended, the rest of the program runs, and the function resumes with
    the value of [p] or throws its reason. *)
Definition await {A} (p : Promise E A) : JS A :=
  λ w, (env w, match outcome p with
               | fulfilled a => Normal a
               | rejected e => Throw e
               end).

(** An [async] function: its promise settles with the completion of its
    body.  The result is the world at that moment and the outcome. *)
Definition async {A} (body : JS A)
    : world K V W → world K V W * PromiseSettledResult E A :=
  λ w, let '(w', c) := body w in (w', settle c).

(** The arrow [async x => cont(await first)] whose continuation is pure:
    the call runs [first] synchronously and returns a promise at once; a
    throw of [first] rejects that promise, otherwise it settles one step
    after the awaited value does. *)
Definition arrow_promise {A B} (cont : A → B)
    (c : completion E (MaybePromise E A)) : Promise E B :=
  match c with
  | Throw e => MkPromise 0 (rejected e)
  | Normal x =>
      let p := Promise_resolve x in
      MkPromise (S (settles_at p))
        match outcome p with
        | fulfilled a => fulfilled (cont a)
        | rejected e => rejected e
        end
  end.

Definition async_arrow {A B} (first : JS (MaybePromise E A)) (cont : A → B)
    : JS (Promise E B) :=
  λ w, let '(w', c) := first w in (w', Normal (arrow_promise cont c)).

(** [transformMapAsync(map, transform)], lines 43-54. *)
Definition transformMapAsync {R}
    (transform : V → K → callback W E (MaybePromise E R))
    : world K V W → world K V W * PromiseSettledResult E (list (K * R)) :=
  async (
    es ← entries;
    tasks ← Array_from es (λ '((key, value) : K * V),
              async_arrow (call (transform value key)) (λ r, (key, r)));
    pairs ← await (Promise_all tasks);
    mret (Map_new pairs)).

(** The loop of lines 67-72: [result.set(key, newValues[i])] for every
    [[i, key]] of [keys.entries()].  An index past the end of [newValues]
    reads [undefined], here [None]. *)
Definition zip_outcomes {A} (ks : list K) (newValues : list A)
    : list (K * option A) :=
  foldl (λ result '(i, key), Map_set result key (newValues !! i))
        [] (imap pair ks).

(** [allSettledMap(map, transform)], lines 60-73. *)
Definition allSettledMap {R}
    (transform : V → K → callback W E (MaybePromise E R))
    : world K V W →
      world K V W *
      PromiseSettledResult E (list (K * option (PromiseSettledResult E R))) :=
  async (
    es ← entries;
    xs ← Array_from es (λ '((key, value) : K * V),
           call (transform value key));
    newValues ← await (Promise_allSettled xs);
    ks ← keys;
    mret (zip_outcomes ks newValues)).

(** The zip that the specification describes: the key sequence is captured
    once, before the invocations are scheduled, and that snapshot is used
    to put the outcomes back under their keys. *)
Definition allSettledMap_snapshot {R}
    (transform : V → K → callback W E (MaybePromise E R))
    : world K V W →
      world K V W *
      PromiseSettledResult E (list (K * option (PromiseSettledResult E R))) :=
  async (
    ks ← keys;
    es ← entries;
    xs ← Array_from es (λ '((key, value) : K * V),
           call (transform value key));
    newValues ← await (Promise_allSettled xs);
    mret (zip_outcomes ks newValues)).
End Async.

(** ** Reference notions used by the statements *)

Section Invocations.
Context {K V W E : Type}.

(** The invocations [transform(value, key)] for the entries [es], made from
    left to right whatever their completions are: the caller's state after
    the last one, and the completion of each. *)
Fixpoint invoke_all {A} (transform : V → K → callback W E A)
    (es : list (K * V)) (u : W) : W * list (completion E A) :=
  match es with
  | [] => (u, [])
  | (key, value) :: es' =>
      let '(u', c) := transform value key u in
      let '(u'', cs) := invoke_all transform es' u' in
      (u'', c :: cs)
  end.

(** How one invocation ends: it threw, or what it returned settles. *)
Definition call_result {A} (c : completion E (MaybePromise E A))
    : PromiseSettledResult E A :=
  match c with
  | Throw e => rejected e
  | Normal x => outcome (Promise_resolve x)
  end.

(** The invocation threw synchronously. *)
Definition threw {A} (c : completion E A) : bool :=
  match c with
  | Throw _ => true
  | Normal _ => false
  end.

(** The invocation failed, by a throw or by a rejection. *)
Definition failed {A} (c : completion E (MaybePromise E A)) : bool :=
  match call_result c with
  | rejected _ => true
  | fulfilled _ => false
  end.

(** A transform instrumented to record, in front of the caller's own state,
    the entries it is called on, in the order of the calls. *)
Definition logged {A} (transform : V → K → callback W E A)
    : V → K → callback (list (K * V) * W) E A :=
  λ value key s,
    let '(u', c) := transform value key s.2 in
    ((s.1 ++ [(key, value)], u'), c).

(** A computation that leaves the [Map] object as it found it. *)
Definition readonly {A} (c : JS K V W E A) : Prop :=
  ∀ w, map_obj (c w).1 = map_obj w.
End Invocations.

(** ** Concrete scenarios *)

Module Scenario.
(** A few JavaScript values, with their truthiness. *)
Inductive jsval : Type :=
  | JUndefined
  | JBool (b : bool)
  | JNum (n : nat)
  | JStr (s : string).

Definition truthy (x : jsval) : bool :=
  match x with
  | JUndefined => false
  | JBool b => b
  | JNum n => negb (Nat.eqb n 0)
  | JStr s => negb (String.eqb s "")
  end.

(** The caller's state is a log of the keys its transform was called on. *)
Definition log : Type := list string.

Definition M_abc : list (string * nat) := [("a", 1); ("b", 2); ("c", 3)].
Definition M_ab : list (string * nat) := [("a", 1); ("b", 2)].

(** [a] resolves to 10 after a delay, [b] rejects with "boom" at once. *)
Definition delayed_or_boom
    : nat → string → callback log string (MaybePromise string nat) :=
  λ _ key u,
    (u ++ [key],
     Normal (Thenable (if decide (key = "a")
                       then MkPromise 5 (fulfilled 10)
                       else MkPromise 0 (rejected "boom")))).

(** A transform that is not an [async] function and throws on key [a]:
    [(v, k) => { log.push(k); if (k === "a") throw "boom"; return v }]. *)
Definition throws_on_a
    : nat → string → callback log string (MaybePromise string nat) :=
  λ value key u,
    (u ++ [key], if decide (key = "a") then Throw "boom" else Normal (Plain value)).

(** [a] resolves to 10 after a delay, [b] returns 20 without a promise:
    [b] completes first although [a] is scheduled first. *)
Definition slow_a_fast_b
    : nat → string → callback log string (MaybePromise string nat) :=
  λ value key u,
    (u ++ [key],
     Normal (if decide (key = "a")
             then Thenable (MkPromise 5 (fulfilled 10))
             else Plain (value * 10))).

(** A map that stores [undefined] under its only key. *)
Definition M_undef : list (string * jsval) := [("k", JUndefined)].

(** A synchronous transform and a predicate that throw on key [b]. *)
Definition times_ten_throws_on_b : nat → string → callback log string nat :=
  λ value key u,
    (u ++ [key],
     if decide (key = "b") then Throw "boom" else Normal (value * 10)).

Definition even_throws_on_b : nat → string → callback log string bool :=
  λ value key u,
    (u ++ [key],
     if decide (key = "b") then Throw "boom" else Normal (Nat.even value)).

(** Some other code holding the map runs [map.set("z", 26)] during the
    suspension. *)
Definition sets_z : world string nat log → world string nat log :=
  λ w, World (Map_set (map_obj w) "z" 26) (user w).

(** Nothing else touches the world during a suspension. *)
Definition quiet {V} : world string V log → world string V log := id.

(** Some other code holding the map runs [map.delete("a")] during the
    suspension. *)
Definition deletes_a {V} : world string V log → world string V log :=
  λ w, World (filter (λ kv, kv.1 ≠ "a") (map_obj w)) (user w).
End Scenario.

(** ** Facts about the [Map] model *)

Section MapFacts.
Context {K : Type} `{EqDecision K}.

Lemma Map_has_elem {V} (m : list (K * V)) (key : K) :
  Map_has m key = true ↔ key ∈ Map_keys m.
Proof.
  unfold Map_keys. induction m as [|[k v] m IH]; simpl.
  - split; [done | by intros ?%elem_of_nil].
  - rewrite elem_of_cons. destruct (decide (k = key)) as [->|Hne].
    + split; auto.
    + rewrite IH. split; [auto | intros [?|?]; [congruence | done]].
Qed.

Lemma Map_has_false {V} (m : list (K * V)) (key : K) :
  Map_has m key = false ↔ key ∉ Map_keys m.
Proof.
  rewrite <- Map_has_elem. destruct (Map_has m key); split; congruence.
Qed.

Lemma Map_get_has {V} (m : list (K * V)) (key : K) :
  Map_has m key = true ↔ is_Some (Map_get m key).
Proof.
  induction m as [|[k v] m IH]; simpl.
  - split; [done | by intros [? ?]].
  - destruct (decide (k = key)); [split; eauto | done].
Qed.

Lemma Map_get_elem_of {V} (m : list (K * V)) (key : K) (v : V) :
  Map_get m key = Some v → (key, v) ∈ m.
Proof.
  induction m as [|[k v'] m IH]; simpl; [done |].
  destruct (decide (k = key)) as [->|Hne].
  - intros [= ->]. left.
  - intros Hg. right. auto.
Qed.

Lemma Map_get_wf {V} (m : list (K * V)) (key : K) (v : V) :
  Map_wf m → (key, v) ∈ m → Map_get m key = Some v.
Proof.
  unfold Map_wf, Map_keys. induction m as [|[k v'] m IH]; simpl.
  - by intros _ ?%elem_of_nil.
  - intros [Hk Hm]%NoDup_cons [[= -> ->]|Hin]%elem_of_cons.
    + by rewrite decide_True.
    + rewrite decide_False; [auto |].
      intros ->. apply Hk. apply list_elem_of_fmap. by exists (key, v).
Qed.

Lemma Map_set_fresh {V} (m : list (K * V)) (key : K) (value : V) :
  key ∉ Map_keys m → Map_set m key value = m ++ [(key, value)].
Proof.
  unfold Map_keys. induction m as [|[k v] m IH]; simpl; [done |].
  intros [Hne Hm]%not_elem_of_cons.
  rewrite decide_False by congruence. by rewrite IH.
Qed.

Lemma Map_get_app_fresh {V} (m : list (K * V)) (key : K) (value : V) :
  key ∉ Map_keys m → Map_get (m ++ [(key, value)]) key = Some value.
Proof.
  unfold Map_keys. induction m as [|[k v] m IH]; simpl.
  - intros _. by rewrite decide_True.
  - intros [Hne Hm]%not_elem_of_cons.
    rewrite decide_False by congruence. auto.
Qed.

Lemma foldl_Map_set_fresh {V} (acc pairs : list (K * V)) :
  NoDup (Map_keys (acc ++ pairs)) →
  foldl (λ m '(k, v), Map_set m k v) acc pairs = acc ++ pairs.
Proof.
  revert acc. induction pairs as [|[k v] pairs IH]; intros acc Hnd; simpl.
  - by rewrite app_nil_r.
  - assert (Hk : k ∉ Map_keys acc).
    { unfold Map_keys in *. rewrite fmap_app in Hnd.
      apply NoDup_app in Hnd as (_ & Hdisj & _).
      intros Hin. apply (Hdisj _ Hin). simpl. left. }
    rewrite Map_set_fresh by done.
    rewrite IH; rewrite <- app_assoc; done.
Qed.

(** Building a [Map] from pairs with distinct keys keeps the pairs as they
    are, in their order. *)
Lemma Map_new_wf {V} (pairs : list (K * V)) :
  Map_wf pairs → Map_new pairs = pairs.
Proof. intros Hwf. unfold Map_new. by rewrite foldl_Map_set_fresh. Qed.

Lemma Map_wf_filter {V} (P : K * V → Prop) `{∀ x, Decision (P x)}
    (m : list (K * V)) :
  Map_wf m → Map_wf (filter P m).
Proof.
  unfold Map_wf, Map_keys. intros Hnd.
  apply (sublist_NoDup _ (m.*1)); [done|].
  apply fmap_sublist, sublist_filter.
Qed.
End MapFacts.

(** ** The synchronous functions *)

Ltac js_unfold :=
  unfold mbind, mret, JS_mbind, JS_mret, JS_bind, JS_ret,
    call, total, entries, keys, has, get, set in *.

Section SyncFacts.
Context {K V W E : Type} `{EqDecision K}.

Implicit Types (M : list (K * V)) (u : W).

Lemma Array_from_total {R} (f : V → K → R) (es : list (K * V)) M u :
  Array_from (E:=E) es (λ '((key, value) : K * V),
      r ← call (total (f value key)); mret (key, r)) (World M u)
  = (World M u, Normal ((λ '(k, v), (k, f v k)) <$> es)).
Proof.
  induction es as [|[k v] es IH]; [done |].
  cbn [Array_from fmap list_fmap]. js_unfold. cbn.
  js_unfold. by rewrite IH.
Qed.

Lemma Array_filter_total (p : V → K → bool) (es : list (K * V)) M u :
  Array_filter (E:=E) es (λ '((key, value) : K * V),
      call (total (p value key))) (World M u)
  = (World M u, Normal (filter (λ kv, p kv.2 kv.1 = true) es)).
Proof.
  induction es as [|[k v] es IH]; [done |].
  rewrite filter_cons. cbn [Array_filter]. js_unfold.
  cbn [user map_obj]. js_unfold. rewrite IH. cbn [fst snd].
  destruct (p v k); by case_decide.
Qed.

Lemma Map_keys_transform {R} (f : V → K → R) M :
  Map_keys ((λ '(k, v), (k, f v k)) <$> M) = Map_keys M.
Proof.
  unfold Map_keys. rewrite <- list_fmap_compose.
  apply list_fmap_ext. by intros _ [k v] _.
Qed.

Lemma Map_get_transform {R} (f : V → K → R) M (key : K) :
  Map_get ((λ '(k, v), (k, f v k)) <$> M) key
  = (λ v, f v key) <$> Map_get M key.
Proof.
  induction M as [|[k v] M IH]; [done |]. cbn.
  destruct (decide (k = key)) as [->|]; [done | apply IH].
Qed.

Lemma transformMap_run_total {R} (f : V → K → R) M u :
  Map_wf M →
  transformMap (E:=E) (λ v k, total (f v k)) (World M u)
    = (World M u, Normal ((λ '(k, v), (k, f v k)) <$> M)).
Proof.
  intros Hwf. unfold transformMap. js_unfold. cbn [map_obj].
  pose proof (Array_from_total f M M u) as Hfrom. js_unfold.
  rewrite Hfrom. f_equal. f_equal. apply Map_new_wf.
  unfold Map_wf. by rewrite Map_keys_transform.
Qed.
End SyncFacts.

Section SyncSpec.
Context {K V W E : Type} `{EqDecision K}.

Implicit Types (M : list (K * V)) (u : W).

(** C5.  For every map [M] and every total transform [f],
    [transformMap(M, f)] returns a new map whose entries are those of [M]
    in [M]'s iteration order with each value [v] under key [k] replaced by
    [f(v, k)]: the key sequence is the same, and looking up any key gives
    [f] applied to what [M] holds under it. *)
Theorem transformMap_total {R} (f : V → K → R) M u :
  Map_wf M →
  let out := (λ '(k, v), (k, f v k)) <$> M in
  transformMap (E:=E) (λ v k, total (f v k)) (World M u)
    = (World M u, Normal out)
  ∧ Map_keys out = Map_keys M
  ∧ ∀ k, Map_get out k = (λ v, f v k) <$> Map_get M k.
Proof.
  intros Hwf out. split_and!.
  - by apply transformMap_run_total.
  - apply Map_keys_transform.
  - intros k. apply Map_get_transform.
Qed.

(** C8.  [transformMap(M, identity)] equals [M]: same keys in the same
    order, same value under every key. *)
Theorem transformMap_identity M u :
  Map_wf M →
  transformMap (E:=E) (λ v _, total v) (World M u) = (World M u, Normal M).
Proof.
  intros Hwf. rewrite (transformMap_run_total (λ v _, v)) by done.
  f_equal. f_equal. rewrite <- (list_fmap_id M) at 2.
  apply list_fmap_ext. by intros _ [k v] _.
Qed.

(** C6.  For every map [M] and predicate [p], [filterMap(M, p)] returns the
    entries of [M] on which [p(value, key)] is true, unchanged and in their
    original relative order: a key is bound to [v] in the result exactly
    when it is bound to [v] in [M] and [p(v, k)] holds. *)
Theorem filterMap_exact (p : V → K → bool) M u :
  Map_wf M →
  let out := filter (λ kv, p kv.2 kv.1 = true) M in
  filterMap (E:=E) (λ v k, total (p v k)) (World M u)
    = (World M u, Normal out)
  ∧ out `sublist_of` M
  ∧ ∀ k v, Map_get out k = Some v ↔ Map_get M k = Some v ∧ p v k = true.
Proof.
  intros Hwf out.
  assert (Hout : Map_wf out) by by apply Map_wf_filter.
  split_and!.
  - unfold filterMap. js_unfold. cbn [map_obj].
    pose proof (Array_filter_total (E:=E) p M M u) as Hfilter. js_unfold.
    rewrite Hfilter. fold out. f_equal. f_equal. by apply Map_new_wf.
  - apply sublist_filter.
  - intros k v. split.
    + intros Hin%Map_get_elem_of. apply list_elem_of_filter in Hin as [Hp Hin].
      split; [by apply Map_get_wf | done].
    + intros [Hin%Map_get_elem_of Hp]. apply Map_get_wf; [done |].
      by apply list_elem_of_filter.
Qed.

(** C7.  [getOrDefault(M, k, d)]: when [k] is not in [M], the map afterwards
    is [M] with the single entry [(k, d)] inserted and the call returns [d];
    when [k] is in [M] with value [v], the map is unchanged and the call
    returns [v].  Every call does exactly one of the two, and returns the
    value stored under [k] after the call. *)
Theorem getOrDefault_spec M u (k : K) (d : V) :
  (Map_has M k = false →
     getOrDefault (E:=E) k d (World M u)
       = (World (M ++ [(k, d)]) u, Normal (Some d)))
  ∧ (∀ v, Map_get M k = Some v →
     getOrDefault (E:=E) k d (World M u) = (World M u, Normal (Some v)))
  ∧ ∃ M' r,
      getOrDefault (E:=E) k d (World M u) = (World M' u, Normal (Some r))
      ∧ Map_get M' k = Some r
      ∧ (M' = M ∨ M' = M ++ [(k, d)])
      ∧ ¬ (M' = M ∧ M' = M ++ [(k, d)]).
Proof.
  assert (Habsent : Map_has M k = false →
     getOrDefault (E:=E) k d (World M u)
       = (World (M ++ [(k, d)]) u, Normal (Some d))).
  { intros Hhas. unfold getOrDefault. js_unfold. cbn [map_obj user].
    rewrite Hhas. cbn [negb map_obj user].
    apply Map_has_false in Hhas.
    by rewrite Map_set_fresh, Map_get_app_fresh. }
  assert (Hpresent : ∀ v, Map_get M k = Some v →
     getOrDefault (E:=E) k d (World M u) = (World M u, Normal (Some v))).
  { intros v Hget. unfold getOrDefault. js_unfold. cbn [map_obj user].
    assert (Hhas : Map_has M k = true) by (apply Map_get_has; eauto).
    rewrite Hhas. cbn [negb map_obj user]. by rewrite Hget. }
  split_and!; [done | done |].
  assert (Hne : M ≠ M ++ [(k, d)]).
  { intros Heq%(f_equal length). rewrite length_app in Heq. simpl in Heq. lia. }
  destruct (Map_has M k) eqn:Hhas.
  - apply Map_get_has in Hhas as [v Hget].
    exists M, v. rewrite (Hpresent v Hget). split_and!; auto.
    by intros [_ ?].
  - exists (M ++ [(k, d)]), d. rewrite (Habsent eq_refl). split_and!; auto.
    + apply Map_get_app_fresh. by apply Map_has_false.
    + intros [? _]. by apply Hne.
Qed.

(** C10.  [getOrDefault] decides presence by the key alone: whenever [M]
    has the key [k], whatever value is stored under it (an [undefined] or
    falsy one included), the call inserts and overwrites nothing and
    returns the stored value, not the default. *)
Theorem getOrDefault_present_any_value M u (k : K) (d : V) :
  Map_has M k = true →
  k ∈ Map_keys M
  ∧ ∃ v, Map_get M k = Some v
       ∧ getOrDefault (E:=E) k d (World M u) = (World M u, Normal (Some v)).
Proof.
  intros Hhas. split; [by apply Map_has_elem |].
  destruct (proj1 (Map_get_has M k) Hhas) as [v Hget].
  exists v. split; [done |]. unfold getOrDefault. js_unfold.
  cbn [map_obj user]. rewrite Hhas. cbn [negb map_obj user].
  by rewrite Hget.
Qed.
End SyncSpec.

(** ** Facts about promises and invocations *)

Section PromiseFacts.
Context {E : Type}.

Lemma first_rejection_fulfilled {A} (ps : list (Promise E A)) (vs : list A) :
  outcome <$> ps = fulfilled <$> vs →
  first_rejection ps = None ∧ omap value_of ps = vs.
Proof.
  revert vs. induction ps as [|p ps IH]; intros [|v vs] Heq;
    try discriminate; [done |].
  injection Heq as Hp Hps. destruct (IH vs Hps) as [Hnone Hvals].
  cbn [first_rejection omap list_omap]. unfold value_of at 1.
  rewrite Hp, Hnone. by rewrite Hvals.
Qed.

Lemma first_rejection_Some {A} (ps : list (Promise E A)) (t : nat) (e : E) :
  first_rejection ps = Some (t, e) →
  ∃ p, p ∈ ps ∧ outcome p = rejected e ∧ settles_at p = t.
Proof.
  revert t e. induction ps as [|p ps IH]; intros t e; cbn; [done |].
  destruct (outcome p) as [v|e0] eqn:Hp.
  - intros (q & Hq & Hout)%IH. exists q. split; [by right | done].
  - destruct (first_rejection ps) as [[t' e']|] eqn:Hrest.
    + case_decide; intros [= <- <-].
      * destruct (IH t' e' eq_refl) as (q & Hq & Hout).
        exists q. split; [by right | done].
      * exists p. split; [left | done].
    + intros [= <- <-]. exists p. split; [left | done].
Qed.

Lemma first_rejection_is_Some {A} (ps : list (Promise E A)) :
  Exists (λ p, ∃ e, outcome p = rejected e) ps →
  is_Some (first_rejection ps).
Proof.
  induction 1 as [p ps [e Hp]|p ps _ IH]; cbn.
  - rewrite Hp. destruct (first_rejection ps) as [[t' e']|]; [|by eexists].
    case_decide; by eexists.
  - destruct (outcome p); [done |].
    destruct IH as [[t' e'] ->]. case_decide; by eexists.
Qed.

Lemma arrow_promise_fulfilled {A B} (cont : A → B)
    (c : completion E (MaybePromise E A)) (r : A) :
  call_result c = fulfilled r →
  outcome (arrow_promise cont c) = fulfilled (cont r).
Proof. destruct c as [x|e]; cbn; [by intros -> | done]. Qed.

Lemma arrow_promise_rejected {A B} (cont : A → B)
    (c : completion E (MaybePromise E A)) (e : E) :
  call_result c = rejected e ↔ outcome (arrow_promise cont c) = rejected e.
Proof.
  destruct c as [x|e']; cbn; [|split; by intros [= ->]].
  destruct (outcome (Promise_resolve x)); split; congruence.
Qed.
End PromiseFacts.

Section InvocationFacts.
Context {K V W E : Type} `{EqDecision K}.

Implicit Types (M : list (K * V)) (u : W).

Lemma JS_bind_run {A B} (c : JS K V W E A) (f : A → JS K V W E B) w :
  (x ← c; f x) w
  = match c w with
    | (w', Normal a) => f a w'
    | (w', Throw e) => (w', Throw e)
    end.
Proof. done. Qed.

Lemma call_run {A} (f : callback W E A) M u :
  call (K:=K) (V:=V) f (World M u) = let '(u', c) := f u in (World M u', c).
Proof. done. Qed.

Lemma invoke_all_length {A} (t : V → K → callback W E A) (es : list (K * V)) u :
  length (invoke_all t es u).2 = length es.
Proof.
  revert u. induction es as [|[k v] es IH]; intros u; cbn; [done |].
  destruct (t v k u) as [u' c]. specialize (IH u').
  destruct (invoke_all t es u') as [u'' cs]. cbn in *. by rewrite IH.
Qed.

(** Every arrow of [transformMapAsync] is called, and returns a promise. *)
Lemma Array_from_arrows {R} (t : V → K → callback W E (MaybePromise E R))
    (es : list (K * V)) M u :
  Array_from es (λ '((key, value) : K * V),
      async_arrow (call (t value key)) (λ r, (key, r))) (World M u)
  = (World M (invoke_all t es u).1,
     Normal (zip_with (λ k c, arrow_promise (λ r, (k, r)) c)
               (Map_keys es) (invoke_all t es u).2)).
Proof.
  revert u. induction es as [|[k v] es IH]; intros u; [done |].
  cbn [Array_from invoke_all]. rewrite JS_bind_run.
  unfold async_arrow at 1. rewrite call_run.
  destruct (t v k u) as [u' c]. rewrite JS_bind_run, IH.
  by destruct (invoke_all t es u') as [u'' cs].
Qed.

(** The calls of [allSettledMap] stop at the first throw; without one, all
    are made and their results collected. *)
Lemma Array_from_calls {A} (t : V → K → callback W E A)
    (es : list (K * V)) M u :
  forallb (λ c, negb (threw c)) (invoke_all t es u).2 = true →
  ∃ xs, (invoke_all t es u).2 = Normal <$> xs
      ∧ Array_from es (λ '((key, value) : K * V), call (t value key))
          (World M u)
        = (World M (invoke_all t es u).1, Normal xs).
Proof.
  revert u. induction es as [|[k v] es IH]; intros u.
  - intros _. by exists [].
  - cbn [Array_from invoke_all]. rewrite JS_bind_run, call_run.
    destruct (t v k u) as [u' c]. specialize (IH u').
    destruct (invoke_all t es u') as [u'' cs]. cbn [fst snd] in *.
    destruct c as [x|e]; [|done]. cbn [forallb threw negb andb].
    intros Hcs. destruct (IH Hcs) as (xs & -> & Hrun).
    exists (x :: xs). split; [done |]. by rewrite JS_bind_run, Hrun.
Qed.

Lemma Array_from_calls_world {A} (t : V → K → callback W E A)
    (es : list (K * V)) M u :
  ∃ u' c, Array_from es (λ '((key, value) : K * V), call (t value key))
            (World M u) = (World M u', c).
Proof.
  revert u. induction es as [|[k v] es IH]; intros u; [by eexists _, _ |].
  cbn [Array_from]. rewrite JS_bind_run, call_run.
  destruct (t v k u) as [u' [x|e]]; [|by eexists _, _].
  rewrite JS_bind_run.
  destruct (IH u') as (u'' & [xs|e] & ->); by eexists _, _.
Qed.

Lemma tasks_fulfilled {R} (ks : list K)
    (cs : list (completion E (MaybePromise E R))) (rs : list R) :
  length ks = length cs →
  call_result <$> cs = fulfilled <$> rs →
  outcome <$> zip_with (λ k c, arrow_promise (λ r, (k, r)) c) ks cs
  = fulfilled <$> zip ks rs.
Proof.
  revert cs rs. induction ks as [|k ks IH]; intros [|c cs] [|r rs];
    try done.
  intros [= Hlen] [= Hc Hcs]. cbn. f_equal; [|by apply IH].
  by apply arrow_promise_fulfilled.
Qed.

Lemma tasks_rejected {R} (ks : list K)
    (cs : list (completion E (MaybePromise E R))) :
  length ks = length cs →
  existsb failed cs = true →
  Exists (λ p, ∃ e, outcome p = rejected e)
    (zip_with (λ k c, arrow_promise (λ r : R, (k, r)) c) ks cs).
Proof.
  revert cs. induction ks as [|k ks IH]; intros [|c cs]; try done.
  intros [= Hlen]. cbn. intros [Hc|Hcs]%orb_true_iff.
  - left. unfold failed in Hc. destruct (call_result c) as [|e] eqn:Hr; [done |].
    exists e. by apply arrow_promise_rejected.
  - right. by apply IH.
Qed.

Lemma tasks_rejection_reason {R} (ks : list K)
    (cs : list (completion E (MaybePromise E R))) (p : Promise E (K * R)) (e : E) :
  p ∈ zip_with (λ k c, arrow_promise (λ r : R, (k, r)) c) ks cs →
  outcome p = rejected e →
  rejected e ∈ call_result <$> cs.
Proof.
  revert cs. induction ks as [|k ks IH]; intros [|c cs]; cbn;
    try by intros ?%elem_of_nil.
  intros [Heq|Hin]%elem_of_cons Hp; apply elem_of_cons.
  - left. symmetry. subst p. by eapply arrow_promise_rejected.
  - right. by apply IH.
Qed.

Lemma Map_get_zip {A} (ks : list K) (rs : list A) (i : nat) (k : K) :
  NoDup ks → ks !! i = Some k → Map_get (zip ks rs) k = rs !! i.
Proof.
  revert rs i. induction ks as [|k0 ks IH]; intros rs i; [done |].
  intros [Hk0 Hnd]%NoDup_cons Hi. destruct rs as [|r rs]; [done |].
  destruct i as [|i]; cbn in *.
  - injection Hi as ->. by rewrite decide_True.
  - rewrite decide_False; [by apply IH |].
    intros ->. apply Hk0. by eapply list_elem_of_lookup_2.
Qed.

(** The loop of [allSettledMap] over distinct keys pairs the key at
    position [i] with [newValues[i]]. *)
Lemma foldl_zip_outcomes {A} (ks : list K) (newValues : list A)
    (g : nat → nat) (acc : list (K * option A)) :
  NoDup (Map_keys acc ++ ks) →
  foldl (λ result '(i, key), Map_set result key (newValues !! i))
    acc (imap (λ i k, (g i, k)) ks)
  = acc ++ imap (λ i k, (k, newValues !! g i)) ks.
Proof.
  revert g acc. induction ks as [|k ks IH]; intros g acc Hnd.
  - cbn. by rewrite app_nil_r.
  - rewrite !imap_cons. cbn [foldl].
    pose proof Hnd as (_ & Hdisj & _)%NoDup_app.
    rewrite Map_set_fresh.
    2:{ intros Hin. apply (Hdisj _ Hin). left. }
    rewrite (IH (g ∘ S)).
    + by rewrite <- app_assoc.
    + unfold Map_keys in *. by rewrite fmap_app, <- app_assoc.
Qed.

Lemma zip_outcomes_wf {A} (ks : list K) (newValues : list A) :
  NoDup ks → length ks = length newValues →
  zip_outcomes ks newValues = zip ks (Some <$> newValues).
Proof.
  intros Hnd Hlen. unfold zip_outcomes.
  etrans; [exact (foldl_zip_outcomes ks newValues id [] Hnd) |].
  cbn [app id]. clear Hnd. revert newValues Hlen.
  induction ks as [|k ks IH] using rev_ind; intros newValues Hlen.
  - done.
  - destruct newValues as [|v vs _] using rev_ind.
    { rewrite length_app in Hlen. cbn in Hlen. lia. }
    rewrite !length_app in Hlen. cbn in Hlen.
    assert (Hlen' : length ks = length vs) by lia.
    rewrite imap_app, fmap_app. cbn.
    rewrite zip_with_app by by rewrite length_fmap.
    cbn. rewrite Nat.add_0_r, Hlen'.
    rewrite list_lookup_middle by done. f_equal.
    rewrite <- (IH vs Hlen'). apply imap_ext. intros i x Hi. cbn.
    f_equal. apply lookup_app_l. rewrite <- Hlen'.
    by eapply lookup_lt_Some.
Qed.
End InvocationFacts.

(** ** Computations that leave the [Map] object alone *)

Create HintDb readonly discriminated.

Section Readonly.
Context {K V W E : Type} `{EqDecision K}.
Variable env : world K V W → world K V W.
Hypothesis env_frame : ∀ w, map_obj (env w) = map_obj w.

Local Abbreviation JS := (JS K V W E).

Lemma readonly_ret {A} (a : A) : readonly (mret a : JS A).
Proof. done. Qed.

Lemma readonly_bind {A B} (c : JS A) (f : A → JS B) :
  readonly c → (∀ a, readonly (f a)) → readonly (x ← c; f x).
Proof.
  intros Hc Hf w. rewrite JS_bind_run. specialize (Hc w).
  destruct (c w) as [w' [a|e]]; cbn in *; [|done].
  by rewrite Hf.
Qed.

Lemma readonly_call {A} (f : callback W E A) : readonly (call f : JS A).
Proof. intros [M u]. rewrite call_run. by destruct (f u). Qed.

Lemma readonly_entries : readonly (entries : JS _).
Proof. done. Qed.

Lemma readonly_keys : readonly (keys : JS _).
Proof. done. Qed.

Lemma readonly_await {A} (p : Promise E A) : readonly (await env p).
Proof. intros w. apply env_frame. Qed.

Lemma readonly_async_arrow {A B} (first : JS (MaybePromise E A)) (cont : A → B) :
  readonly first → readonly (async_arrow first cont).
Proof.
  intros Hfirst w. unfold async_arrow. specialize (Hfirst w).
  by destruct (first w).
Qed.

Lemma readonly_Array_from {A B} (items : list A) (mapFn : A → JS B) :
  (∀ x, readonly (mapFn x)) → readonly (Array_from items mapFn).
Proof.
  intros HmapFn. induction items as [|x items IH]; cbn [Array_from].
  - apply readonly_ret.
  - apply readonly_bind; [done |]. intros y.
    apply readonly_bind; [done |]. intros ys. apply readonly_ret.
Qed.

Lemma readonly_Array_filter {A} (items : list A) (predicate : A → JS bool) :
  (∀ x, readonly (predicate x)) → readonly (Array_filter items predicate).
Proof.
  intros Hpred. induction items as [|x items IH]; cbn [Array_filter].
  - apply readonly_ret.
  - apply readonly_bind; [done |]. intros keep.
    apply readonly_bind; [done |]. intros rest. apply readonly_ret.
Qed.

Lemma readonly_async {A} (body : JS A) w :
  readonly body → map_obj (async body w).1 = map_obj w.
Proof.
  intros Hbody. unfold async. specialize (Hbody w). by destruct (body w).
Qed.
End Readonly.

Global Hint Resolve readonly_ret readonly_call readonly_entries readonly_keys
  readonly_await readonly_async_arrow : readonly.

Ltac readonly_steps :=
  repeat first
    [ solve [eauto with readonly]
    | apply readonly_bind
    | apply readonly_Array_from
    | apply readonly_Array_filter
    | match goal with |- ∀ _ : _ * _, _ => intros [? ?] end
    | match goal with |- ∀ _, _ => intro end ].

Section AsyncSpec.
Context {K V W E : Type} `{EqDecision K}.
Variable env : world K V W → world K V W.

Implicit Types (M : list (K * V)) (u : W).

Lemma transformMapAsync_run {R}
    (t : V → K → callback W E (MaybePromise E R)) M u :
  transformMapAsync env t (World M u)
  = (env (World M (invoke_all t M u).1),
     settle
       match outcome (Promise_all
               (zip_with (λ k c, arrow_promise (λ r, (k, r)) c)
                  (Map_keys M) (invoke_all t M u).2)) with
       | fulfilled pairs => Normal (Map_new pairs)
       | rejected e => Throw e
       end).
Proof.
  unfold transformMapAsync, async.
  rewrite JS_bind_run. cbn [entries map_obj].
  rewrite JS_bind_run, Array_from_arrows, JS_bind_run.
  unfold await at 1.
  by destruct (outcome (Promise_all _)).
Qed.

(** C3.  When every invocation of the transform succeeds, with results
    [rs] in the order of the entries, the promise of
    [transformMapAsync(M, f)] is fulfilled with a map that has the keys of
    [M] in [M]'s iteration order and, under the key at position [i], the
    resolved value [rs !! i] of that entry's invocation.  The times at
    which the invocations settle play no role. *)
Theorem transformMapAsync_all_succeed {R}
    (t : V → K → callback W E (MaybePromise E R)) M u (rs : list R) :
  Map_wf M →
  call_result <$> (invoke_all t M u).2 = fulfilled <$> rs →
  let out := zip (Map_keys M) rs in
  transformMapAsync env t (World M u)
    = (env (World M (invoke_all t M u).1), fulfilled out)
  ∧ Map_keys out = Map_keys M
  ∧ ∀ i k, Map_keys M !! i = Some k → Map_get out k = rs !! i.
Proof.
  intros Hwf Hrs out.
  assert (Hlen : length (Map_keys M) = length rs).
  { apply (f_equal length) in Hrs. rewrite !length_fmap in Hrs.
    rewrite <- Hrs, invoke_all_length. unfold Map_keys. by rewrite length_fmap. }
  assert (Hkeys : Map_keys out = Map_keys M).
  { unfold Map_keys at 1. apply fst_zip. lia. }
  split_and!; [| done | intros i k; by apply Map_get_zip].
  rewrite transformMapAsync_run.
  pose proof (tasks_fulfilled (Map_keys M) (invoke_all t M u).2 rs) as Htasks.
  rewrite invoke_all_length in Htasks. unfold Map_keys at 1 in Htasks.
  rewrite length_fmap in Htasks. specialize (Htasks eq_refl Hrs).
  apply first_rejection_fulfilled in Htasks as [Hnone Hvals].
  unfold Promise_all. rewrite Hnone, Hvals. cbn [outcome settle].
  do 2 f_equal. apply Map_new_wf. unfold Map_wf. by rewrite Hkeys.
Qed.

(** C2.  When at least one invocation of the transform fails,
    [transformMapAsync(M, t)] rejects, with the failure reason of one of
    the invocations, and produces no map.  Every entry's invocation has
    been made all the same: the caller's state is the one left by all of
    them, in order. *)
Theorem transformMapAsync_fail_fast {R}
    (t : V → K → callback W E (MaybePromise E R)) M u :
  existsb failed (invoke_all t M u).2 = true →
  ∃ e, transformMapAsync env t (World M u)
         = (env (World M (invoke_all t M u).1), rejected e)
     ∧ rejected e ∈ call_result <$> (invoke_all t M u).2
     ∧ length (invoke_all t M u).2 = length M.
Proof.
  intros Hfail.
  assert (Hlen : length (Map_keys M) = length (invoke_all t M u).2).
  { rewrite invoke_all_length. unfold Map_keys. by rewrite length_fmap. }
  pose proof (tasks_rejected _ _ Hlen Hfail) as Hrej.
  apply first_rejection_is_Some in Hrej as [[t0 e] Hfirst].
  exists e. rewrite transformMapAsync_run. unfold Promise_all.
  rewrite Hfirst. cbn [outcome settle]. split_and!; [done | |].
  - apply first_rejection_Some in Hfirst as (p & Hp & Hout & _).
    by eapply tasks_rejection_reason.
  - apply invoke_all_length.
Qed.

Lemma allSettledMap_run {R}
    (t : V → K → callback W E (MaybePromise E R)) M u u'
    (c : completion E (list (MaybePromise E R))) :
  Array_from M (λ '((key, value) : K * V), call (t value key)) (World M u)
    = (World M u', c) →
  allSettledMap env t (World M u)
    = match c with
      | Throw e => (World M u', rejected e)
      | Normal xs =>
          (env (World M u'),
           fulfilled (zip_outcomes (Map_keys (map_obj (env (World M u'))))
                        (outcome ∘ Promise_resolve <$> xs)))
      end
  ∧ allSettledMap_snapshot env t (World M u)
    = match c with
      | Throw e => (World M u', rejected e)
      | Normal xs =>
          (env (World M u'),
           fulfilled (zip_outcomes (Map_keys M)
                        (outcome ∘ Promise_resolve <$> xs)))
      end.
Proof.
  intros Hrun. unfold allSettledMap, allSettledMap_snapshot, async. split.
  - rewrite JS_bind_run. cbn [entries map_obj].
    rewrite JS_bind_run, Hrun. by destruct c.
  - rewrite JS_bind_run. cbn [keys map_obj].
    rewrite JS_bind_run. cbn [entries map_obj].
    rewrite JS_bind_run, Hrun. by destruct c.
Qed.

(** A transform that throws on the first entry, instead of returning a
    rejected promise, ends [Array.from] and with it [allSettledMap]: no
    later entry is visited and the returned promise rejects. *)
Lemma allSettledMap_first_throws {R}
    (t : V → K → callback W E (MaybePromise E R)) M u k v u' e :
  t v k u = (u', Throw e) →
  allSettledMap env t (World ((k, v) :: M) u)
    = (World ((k, v) :: M) u', rejected e).
Proof.
  intros Ht. eapply (proj1 (allSettledMap_run t _ u u' (Throw e) _)).
  Unshelve. cbn [Array_from]. by rewrite JS_bind_run, call_run, Ht.
Qed.

(** Without a synchronous throw, and with the key sequence of the map left
    alone during the suspension, [allSettledMap] resolves with one outcome
    per key. *)
Lemma allSettledMap_settles {R}
    (t : V → K → callback W E (MaybePromise E R)) M u :
  Map_wf M →
  (∀ w, Map_keys (map_obj (env w)) = Map_keys (map_obj w)) →
  forallb (λ c, negb (threw c)) (invoke_all t M u).2 = true →
  allSettledMap env t (World M u)
    = (env (World M (invoke_all t M u).1),
       fulfilled (zip (Map_keys M)
                    (Some <$> (call_result <$> (invoke_all t M u).2)))).
Proof.
  intros Hwf Henv Hthrow.
  destruct (Array_from_calls t M M u Hthrow) as (xs & Hxs & Hrun).
  rewrite (proj1 (allSettledMap_run t M u _ _ Hrun)).
  rewrite Henv. cbn [map_obj]. do 2 f_equal.
  assert (Hres : outcome ∘ Promise_resolve <$> xs
                 = call_result <$> (invoke_all t M u).2).
  { rewrite Hxs, <- list_fmap_compose. done. }
  rewrite Hres. apply zip_outcomes_wf; [done |].
  rewrite length_fmap, invoke_all_length. unfold Map_keys.
  by rewrite length_fmap.
Qed.

(** C9.  None of [transformMap], [filterMap], [transformMapAsync] and
    [allSettledMap] mutates its input map: whatever the callbacks do, and
    provided nothing else changes the map while an asynchronous call is
    suspended, the map object holds after the call the entries, in the
    order, it held before. *)
Theorem input_map_not_mutated {R1 R2}
    (f : V → K → callback W E R1) (p : V → K → callback W E bool)
    (t : V → K → callback W E (MaybePromise E R2)) M u :
  (∀ w, map_obj (env w) = map_obj w) →
  map_obj (transformMap f (World M u)).1 = M
  ∧ map_obj (filterMap p (World M u)).1 = M
  ∧ map_obj (transformMapAsync env t (World M u)).1 = M
  ∧ map_obj (allSettledMap env t (World M u)).1 = M.
Proof.
  intros Henv. split_and!.
  - assert (Hro : readonly (transformMap f))
      by (unfold transformMap; readonly_steps).
    apply (Hro (World M u)).
  - assert (Hro : readonly (filterMap p))
      by (unfold filterMap; readonly_steps).
    apply (Hro (World M u)).
  - unfold transformMapAsync. rewrite readonly_async; [done |].
    readonly_steps.
  - unfold allSettledMap. rewrite readonly_async; [done |].
    readonly_steps.
Qed.
End AsyncSpec.

(** ** The scenarios of the specification *)

Section Scenarios.
Import Scenario.

Lemma Map_wf_abc : Map_wf M_abc.
Proof. unfold Map_wf. apply (bool_decide_unpack _). by vm_compute. Qed.

Lemma Map_wf_ab : Map_wf M_ab.
Proof. unfold Map_wf. apply (bool_decide_unpack _). by vm_compute. Qed.

(** [transformMap({a: 1, b: 2, c: 3}, x => x * 10)] is
    [{a: 10, b: 20, c: 30}]. *)
Lemma transformMap_total_witness :
  Map_wf M_abc
  ∧ transformMap (E:=string) (λ v _, total (v * 10)) (World M_abc ([] : log))
    = (World M_abc [], Normal [("a", 10); ("b", 20); ("c", 30)]).
Proof.
  split; [exact Map_wf_abc |].
  exact (proj1 (transformMap_total (λ v _, v * 10) M_abc [] Map_wf_abc)).
Defined.

Lemma transformMap_identity_witness :
  Map_wf M_abc
  ∧ transformMap (E:=string) (λ v _, total v) (World M_abc ([] : log))
    = (World M_abc [], Normal M_abc).
Proof.
  split; [exact Map_wf_abc |].
  exact (transformMap_identity M_abc [] Map_wf_abc).
Defined.

(** [filterMap({a: 1, b: 2, c: 3}, x => x % 2 == 0)] is [{b: 2}]. *)
Lemma filterMap_exact_witness :
  Map_wf M_abc
  ∧ filterMap (E:=string) (λ v _, total (Nat.even v)) (World M_abc ([] : log))
    = (World M_abc [], Normal [("b", 2)]).
Proof.
  split; [exact Map_wf_abc |].
  exact (proj1 (filterMap_exact (λ v _, Nat.even v) M_abc [] Map_wf_abc)).
Defined.

(** [getOrDefault({}, "x", 5)] returns 5 and leaves [{x: 5}]; then
    [getOrDefault({x: 5}, "x", 9)] returns 5 and changes nothing. *)
Lemma getOrDefault_spec_witness :
  (Map_has ([] : list (string * nat)) "x" = false
   ∧ getOrDefault (E:=string) "x" 5 (World [] ([] : log))
     = (World [("x", 5)] [], Normal (Some 5)))
  ∧ (Map_get [("x", 5)] "x" = Some 5
     ∧ getOrDefault (E:=string) "x" 9 (World [("x", 5)] ([] : log))
       = (World [("x", 5)] [], Normal (Some 5))).
Proof.
  split; (split; [reflexivity |]).
  - exact (proj1 (getOrDefault_spec [] [] "x" 5) eq_refl).
  - exact (proj1 (proj2 (getOrDefault_spec [("x", 5)] [] "x" 9)) 5 eq_refl).
Defined.

(** A key bound to [undefined], a falsy value, is present all the same. *)
Lemma getOrDefault_present_any_value_witness :
  truthy JUndefined = false
  ∧ Map_has M_undef "k" = true
  ∧ "k" ∈ Map_keys M_undef
  ∧ ∃ v, Map_get M_undef "k" = Some v
       ∧ getOrDefault (E:=string) "k" (JNum 7) (World M_undef ([] : log))
         = (World M_undef [], Normal (Some v)).
Proof.
  split; [reflexivity |]. split; [reflexivity |].
  exact (getOrDefault_present_any_value M_undef [] "k" (JNum 7) eq_refl).
Defined.

(** [b] completes before [a]; the output still lists [a] first. *)
Lemma transformMapAsync_all_succeed_witness :
  Map_wf M_ab
  ∧ call_result <$> (invoke_all slow_a_fast_b M_ab []).2
    = fulfilled <$> [10; 20]
  ∧ transformMapAsync quiet slow_a_fast_b (World M_ab [])
    = (World M_ab ["a"; "b"], fulfilled [("a", 10); ("b", 20)]).
Proof.
  split; [exact Map_wf_ab |]. split; [reflexivity |].
  exact (proj1 (transformMapAsync_all_succeed quiet slow_a_fast_b M_ab []
                  [10; 20] Map_wf_ab eq_refl)).
Defined.

(** [a] resolves to 10 after a delay, [b] rejects with "boom" at once:
    [transformMapAsync] rejects. *)
Lemma transformMapAsync_fail_fast_witness :
  existsb failed (invoke_all delayed_or_boom M_ab []).2 = true
  ∧ ∃ e, transformMapAsync quiet delayed_or_boom (World M_ab [])
           = (quiet (World M_ab (invoke_all delayed_or_boom M_ab []).1),
              rejected e)
       ∧ rejected e ∈ call_result <$> (invoke_all delayed_or_boom M_ab []).2
       ∧ length (invoke_all delayed_or_boom M_ab []).2 = length M_ab.
Proof.
  split; [reflexivity |].
  exact (transformMapAsync_fail_fast quiet delayed_or_boom M_ab [] eq_refl).
Defined.

Example transformMapAsync_boom :
  transformMapAsync quiet delayed_or_boom (World M_ab [])
  = (World M_ab ["a"; "b"], rejected "boom").
Proof. reflexivity. Qed.

Example allSettledMap_boom :
  allSettledMap quiet delayed_or_boom (World M_ab [])
  = (World M_ab ["a"; "b"],
     fulfilled [("a", Some (fulfilled 10)); ("b", Some (rejected "boom"))]).
Proof. reflexivity. Qed.

(** C1.  The code at a transform that throws instead of returning a
    rejected promise.  The invocation for [a] fails with reason "boom" and
    the one for [b] would succeed with 2, so a fail-tolerant join would be
    fulfilled with [{a: rejected "boom", b: fulfilled 2}].  The code
    rejects with "boom", and never calls the transform on [b], whereas
    [transformMapAsync] calls it on both entries. *)
Theorem allSettledMap_rejects_on_throw :
  call_result <$> (invoke_all throws_on_a M_ab []).2
    = [rejected "boom"; fulfilled 2]
  ∧ allSettledMap quiet throws_on_a (World M_ab [])
    = (World M_ab ["a"], rejected "boom")
  ∧ transformMapAsync quiet throws_on_a (World M_ab [])
    = (World M_ab ["a"; "b"], rejected "boom").
Proof. split_and!; reflexivity. Qed.

(** C4.  The code at a map that changes while [allSettledMap] is
    suspended.  When [a] is deleted from the map during the suspension, the
    code enumerates the keys again (line 68), finds [b] at position 0 and
    files the outcome of [a] under [b], dropping the outcome of [b]; the zip
    over a snapshot of the keys taken before scheduling keeps both outcomes
    under their own keys, as [transformMapAsync] does by carrying each key
    along with its task (line 50). *)
Lemma allSettledMap_rereads_keys :
  allSettledMap deletes_a delayed_or_boom (World M_ab [])
    = (World [("b", 2)] ["a"; "b"], fulfilled [("b", Some (fulfilled 10))])
  ∧ allSettledMap_snapshot deletes_a delayed_or_boom (World M_ab [])
    = (World [("b", 2)] ["a"; "b"],
       fulfilled [("a", Some (fulfilled 10)); ("b", Some (rejected "boom"))])
  ∧ allSettledMap deletes_a delayed_or_boom (World M_ab [])
    ≠ allSettledMap_snapshot deletes_a delayed_or_boom (World M_ab []).
Proof. split_and!; [reflexivity | reflexivity | by vm_compute]. Qed.

Lemma input_map_not_mutated_witness :
  (∀ w : world string nat log, map_obj (quiet w) = map_obj w)
  ∧ map_obj (transformMap (E:=string) (λ v _, total (v * 10))
               (World M_ab ([] : log))).1 = M_ab
  ∧ map_obj (filterMap (E:=string) (λ v _, total (Nat.even v))
               (World M_ab ([] : log))).1 = M_ab
  ∧ map_obj (transformMapAsync quiet delayed_or_boom (World M_ab [])).1 = M_ab
  ∧ map_obj (allSettledMap quiet delayed_or_boom (World M_ab [])).1 = M_ab.
Proof.
  split; [reflexivity |].
  exact (input_map_not_mutated quiet (λ v _, total (v * 10))
           (λ v _, total (Nat.even v)) delayed_or_boom M_ab []
           (λ _, eq_refl)).
Defined.
End Scenarios.


(** ** Further properties of the synchronous functions *)

Section SyncMore.
Context {K V W E : Type} `{EqDecision K}.

Implicit Types (M : list (K * V)) (u : W).

Lemma Map_has_set {A} (m : list (K * A)) (key : K) (value : A) :
  Map_has (Map_set m key value) key = true.
Proof.
  induction m as [|[k v] m IH]; cbn.
  - by rewrite decide_True.
  - destruct (decide (k = key)) as [->|Hne]; cbn.
    + by rewrite decide_True.
    + by rewrite decide_False.
Qed.

Lemma Map_get_set_ne {A} (m : list (K * A)) (key key' : K) (value : A) :
  key' ≠ key → Map_get (Map_set m key value) key' = Map_get m key'.
Proof.
  intros Hne. induction m as [|[k v] m IH]; cbn.
  - by rewrite decide_False.
  - destruct (decide (k = key)) as [->|Hk]; cbn.
    + by rewrite !decide_False.
    + by rewrite IH.
Qed.

Lemma JS_ret_run {A} (a : A) (w : world K V W) :
  (mret a : JS K V W E A) w = (w, Normal a).
Proof. done. Qed.

Lemma getOrDefault_run M u (k : K) (d : V) :
  getOrDefault (E:=E) k d (World M u)
  = let M' := if Map_has M k then M else Map_set M k d in
    (World M' u, Normal (Map_get M' k)).
Proof.
  unfold getOrDefault. rewrite JS_bind_run. cbn [has map_obj user].
  destruct (Map_has M k); cbn [negb]; by rewrite JS_bind_run.
Qed.

Lemma filterMap_run_total (p : V → K → bool) M u :
  Map_wf M →
  filterMap (E:=E) (λ v k, total (p v k)) (World M u)
  = (World M u, Normal (filter (λ kv, p kv.2 kv.1 = true) M)).
Proof.
  intros Hwf. unfold filterMap. rewrite JS_bind_run. cbn [entries map_obj].
  rewrite JS_bind_run, Array_filter_total.
  unfold mret, JS_mret, JS_ret. do 2 f_equal.
  by apply Map_new_wf, Map_wf_filter.
Qed.

Lemma Array_from_pairs_throw {R} (f : V → K → callback W E R)
    M (M1 : list (K * V)) (k : K) (v : V) (M2 : list (K * V)) u (e : E) :
  forallb (λ c, negb (threw c)) (invoke_all f M1 u).2 = true →
  (f v k (invoke_all f M1 u).1).2 = Throw e →
  Array_from (M1 ++ (k, v) :: M2) (λ '((key, value) : K * V),
      r ← call (f value key); mret (key, r)) (World M u)
  = (World M (f v k (invoke_all f M1 u).1).1, Throw e).
Proof.
  revert u. induction M1 as [|[k1 v1] M1 IH]; intros u Hprefix Hthrow;
    cbn [app Array_from invoke_all] in *.
  - rewrite !JS_bind_run, call_run. cbn [fst] in *.
    destruct (f v k u) as [u2 c]. cbn [fst snd] in *. by subst c.
  - rewrite JS_bind_run, JS_bind_run, call_run.
    destruct (f v1 k1 u) as [u1 c1]. specialize (IH u1).
    destruct (invoke_all f M1 u1) as [u1' cs]. cbn [fst snd] in *.
    destruct c1 as [r1|e1]; [|done]. cbn [forallb threw negb andb] in Hprefix.
    cbv beta iota. rewrite JS_ret_run. cbv beta iota.
    by rewrite JS_bind_run, IH.
Qed.

Lemma Array_filter_throw (p : V → K → callback W E bool)
    M (M1 : list (K * V)) (k : K) (v : V) (M2 : list (K * V)) u (e : E) :
  forallb (λ c, negb (threw c)) (invoke_all p M1 u).2 = true →
  (p v k (invoke_all p M1 u).1).2 = Throw e →
  Array_filter (M1 ++ (k, v) :: M2) (λ '((key, value) : K * V),
      call (p value key)) (World M u)
  = (World M (p v k (invoke_all p M1 u).1).1, Throw e).
Proof.
  revert u. induction M1 as [|[k1 v1] M1 IH]; intros u Hprefix Hthrow;
    cbn [app Array_filter invoke_all] in *.
  - rewrite JS_bind_run, call_run. cbn [fst] in *.
    destruct (p v k u) as [u2 c]. cbn [fst snd] in *. by subst c.
  - rewrite JS_bind_run, call_run.
    destruct (p v1 k1 u) as [u1 c1]. specialize (IH u1).
    destruct (invoke_all p M1 u1) as [u1' cs]. cbn [fst snd] in *.
    destruct c1 as [r1|e1]; [|done]. cbn [forallb threw negb andb] in Hprefix.
    by rewrite JS_bind_run, IH.
Qed.

(** X1.  A throw of the transform aborts [transformMap]: when the transform
    returns normally on the entries before [(k, v)] and throws [e] on
    [(k, v)], the call throws [e] and returns no map, the entries after
    [(k, v)] are never visited (the caller's state is the one left by the
    throwing invocation) and the input map is as before. *)
Theorem transformMap_throw_aborts {R} (f : V → K → callback W E R)
    (M1 : list (K * V)) (k : K) (v : V) (M2 : list (K * V)) u (e : E) :
  forallb (λ c, negb (threw c)) (invoke_all f M1 u).2 = true →
  (f v k (invoke_all f M1 u).1).2 = Throw e →
  transformMap f (World (M1 ++ (k, v) :: M2) u)
  = (World (M1 ++ (k, v) :: M2) (f v k (invoke_all f M1 u).1).1, Throw e).
Proof.
  intros Hprefix Hthrow. unfold transformMap.
  rewrite JS_bind_run. cbn [entries map_obj].
  by rewrite JS_bind_run, (Array_from_pairs_throw _ _ _ _ _ _ _ e).
Qed.

(** X2.  A throw of the predicate aborts [filterMap] in the same way: the
    call throws the predicate's reason, returns no map, visits no later
    entry and leaves the input map as before. *)
Theorem filterMap_throw_aborts (p : V → K → callback W E bool)
    (M1 : list (K * V)) (k : K) (v : V) (M2 : list (K * V)) u (e : E) :
  forallb (λ c, negb (threw c)) (invoke_all p M1 u).2 = true →
  (p v k (invoke_all p M1 u).1).2 = Throw e →
  filterMap p (World (M1 ++ (k, v) :: M2) u)
  = (World (M1 ++ (k, v) :: M2) (p v k (invoke_all p M1 u).1).1, Throw e).
Proof.
  intros Hprefix Hthrow. unfold filterMap.
  rewrite JS_bind_run. cbn [entries map_obj].
  by rewrite JS_bind_run, (Array_filter_throw _ _ _ _ _ _ _ e).
Qed.

(** X4.  Filtering the result of a filter is filtering once by the
    conjunction of the two predicates; in particular filtering twice by the
    same predicate changes nothing more. *)
Theorem filterMap_compose (p q : V → K → bool) M u :
  Map_wf M →
  ∃ mid,
    filterMap (E:=E) (λ v k, total (p v k)) (World M u)
      = (World M u, Normal mid)
    ∧ (filterMap (E:=E) (λ v k, total (q v k)) (World mid u)).2
      = (filterMap (E:=E) (λ v k, total (p v k && q v k)) (World M u)).2
    ∧ (filterMap (E:=E) (λ v k, total (p v k)) (World mid u)).2 = Normal mid.
Proof.
  intros Hwf. eexists. split; [by apply filterMap_run_total |].
  assert (Hmid : Map_wf (filter (λ kv : K * V, p kv.2 kv.1 = true) M))
    by by apply Map_wf_filter.
  rewrite !filterMap_run_total by done. cbn [snd].
  rewrite !list_filter_filter. split; f_equal; apply list_filter_iff.
  - intros [k v]. cbn. rewrite andb_true_iff. tauto.
  - intros [k v]. cbn. tauto.
Qed.

(** X5.  A second [getOrDefault] for the same key, with any default,
    returns what the first call returned and does not change the map
    again. *)
Theorem getOrDefault_twice M u (k : K) (d d' : V) :
  ∃ M' r,
    getOrDefault (E:=E) k d (World M u) = (World M' u, Normal (Some r))
    ∧ getOrDefault (E:=E) k d' (World M' u) = (World M' u, Normal (Some r)).
Proof.
  rewrite getOrDefault_run. cbn zeta.
  set (M' := if Map_has M k then M else Map_set M k d).
  assert (Hhas : Map_has M' k = true).
  { unfold M'. destruct (Map_has M k) eqn:Hk; [done | apply Map_has_set]. }
  destruct (proj1 (Map_get_has M' k) Hhas) as [r Hr].
  exists M', r. rewrite Hr. split; [done |].
  rewrite getOrDefault_run. cbn zeta. by rewrite Hhas, Hr.
Qed.

(** X6.  [getOrDefault] touches nothing but the requested key: every other
    key is bound after the call to what it was bound before, no key is
    removed, the map holds at most one entry more, and its keys stay
    distinct. *)
Theorem getOrDefault_frame M u (k : K) (d : V) :
  ∃ M' r,
    getOrDefault (E:=E) k d (World M u) = (World M' u, Normal r)
    ∧ (∀ k', k' ≠ k → Map_get M' k' = Map_get M k')
    ∧ (∀ k', Map_has M k' = true → Map_has M' k' = true)
    ∧ length M ≤ length M' ≤ S (length M)
    ∧ (Map_wf M → Map_wf M').
Proof.
  rewrite getOrDefault_run. cbn zeta. eexists _, _. split; [done |].
  destruct (Map_has M k) eqn:Hk.
  - split_and!; auto.
  - apply Map_has_false in Hk. rewrite Map_set_fresh by done. split_and!.
    + intros k' Hne. rewrite <- (Map_set_fresh M k d) by done.
      by apply Map_get_set_ne.
    + intros k' Hk'. apply Map_has_elem. apply Map_has_elem in Hk'.
      unfold Map_keys in *. rewrite fmap_app. apply elem_of_app. by left.
    + rewrite length_app. cbn. lia.
    + rewrite length_app. cbn. lia.
    + unfold Map_wf, Map_keys in *. intros Hwf. rewrite fmap_app. cbn.
      apply NoDup_app. split_and!; [done | | apply NoDup_singleton].
      by intros x Hx ->%list_elem_of_singleton.
Qed.
End SyncMore.

Section SyncCompose.
Context {K V W E : Type} `{EqDecision K}.

(** X3.  Transforming the result of a transform is transforming once by
    the composition: [transformMap(transformMap(M, f), g)] has the entries
    of [transformMap(M, (v, k) => g(f(v, k), k))]. *)
Theorem transformMap_compose {R S} (f : V → K → R) (g : R → K → S)
    (M : list (K * V)) (u : W) :
  Map_wf M →
  ∃ mid,
    transformMap (E:=E) (λ v k, total (f v k)) (World M u)
      = (World M u, Normal mid)
    ∧ (transformMap (E:=E) (λ r k, total (g r k)) (World mid u)).2
      = (transformMap (E:=E) (λ v k, total (g (f v k) k)) (World M u)).2.
Proof.
  intros Hwf. eexists. split; [by apply transformMap_run_total |].
  rewrite !transformMap_run_total; [| done |].
  - cbn [snd]. f_equal. rewrite <- list_fmap_compose.
    apply list_fmap_ext. by intros _ [k v] _.
  - unfold Map_wf. by rewrite Map_keys_transform.
Qed.
End SyncCompose.

(** ** Further properties of the asynchronous functions *)

Section AsyncMore.
Context {K V W E : Type} `{EqDecision K}.
Variable env : world K V W → world K V W.

Implicit Types (M : list (K * V)) (u : W).

Lemma failed_false_results {R} (cs : list (completion E (MaybePromise E R))) :
  existsb failed cs = false →
  ∃ rs, call_result <$> cs = fulfilled <$> rs.
Proof.
  induction cs as [|c cs IH]; cbn; [by exists [] |].
  intros [Hc Hcs]%orb_false_iff. destruct (IH Hcs) as [rs Hrs].
  unfold failed in Hc. destruct (call_result c) as [r|e] eqn:Hr; [|done].
  exists (r :: rs). cbn. by rewrite Hrs.
Qed.

Lemma failed_false_no_throw {R} (cs : list (completion E (MaybePromise E R))) :
  existsb failed cs = false →
  forallb (λ c, negb (threw c)) cs = true.
Proof.
  induction cs as [|c cs IH]; cbn; [done |].
  intros [Hc Hcs]%orb_false_iff. rewrite IH by done.
  by destruct c.
Qed.

Lemma transformMapAsync_success {R}
    (t : V → K → callback W E (MaybePromise E R)) M u (rs : list R) :
  call_result <$> (invoke_all t M u).2 = fulfilled <$> rs →
  transformMapAsync env t (World M u)
  = (env (World M (invoke_all t M u).1),
     fulfilled (Map_new (zip (Map_keys M) rs))).
Proof.
  intros Hrs. rewrite transformMapAsync_run.
  pose proof (tasks_fulfilled (Map_keys M) (invoke_all t M u).2 rs) as Htasks.
  rewrite invoke_all_length in Htasks. unfold Map_keys at 1 in Htasks.
  rewrite length_fmap in Htasks. specialize (Htasks eq_refl Hrs).
  apply first_rejection_fulfilled in Htasks as [Hnone Hvals].
  unfold Promise_all. by rewrite Hnone, Hvals.
Qed.

Lemma transformMapAsync_failure {R}
    (t : V → K → callback W E (MaybePromise E R)) M u :
  existsb failed (invoke_all t M u).2 = true →
  ∃ e, transformMapAsync env t (World M u)
       = (env (World M (invoke_all t M u).1), rejected e).
Proof.
  intros Hfail.
  assert (Hlen : length (Map_keys M) = length (invoke_all t M u).2).
  { rewrite invoke_all_length. unfold Map_keys. by rewrite length_fmap. }
  pose proof (tasks_rejected _ _ Hlen Hfail) as Hrej.
  apply first_rejection_is_Some in Hrej as [[t0 e] Hfirst].
  exists e. rewrite transformMapAsync_run. unfold Promise_all.
  by rewrite Hfirst.
Qed.

Lemma invoke_all_total {R} (f : V → K → R) (es : list (K * V)) u :
  invoke_all (E:=E) (λ v k, total (Plain (E:=E) (f v k))) es u
  = (u, (λ '(k, v), Normal (Plain (f v k))) <$> es).
Proof.
  induction es as [|[k v] es IH]; [done |].
  cbn [invoke_all]. unfold total at 1. by rewrite IH.
Qed.

Lemma zip_keys_values {R} (f : V → K → R) (es : list (K * V)) :
  zip (Map_keys es) ((λ '(k, v), f v k) <$> es)
  = (λ '(k, v), (k, f v k)) <$> es.
Proof. induction es as [|[k v] es IH]; [done |]. cbn. by f_equal. Qed.

Lemma zip_fmap_values {A B} (g : A → B) (ks : list K) (rs : list A) :
  zip ks (g <$> rs) = (λ '(k, r), (k, g r)) <$> zip ks rs.
Proof.
  revert rs. induction ks as [|k ks IH]; intros [|r rs]; cbn; [done.. |].
  by rewrite IH.
Qed.

Lemma Array_from_calls_threw {A} (t : V → K → callback W E A)
    (es : list (K * V)) M u :
  ∃ u' c, Array_from es (λ '((key, value) : K * V), call (t value key))
            (World M u) = (World M u', c)
        ∧ threw c = existsb threw (invoke_all t es u).2.
Proof.
  revert u. induction es as [|[k v] es IH]; intros u.
  - by eexists _, _.
  - cbn [Array_from invoke_all]. rewrite JS_bind_run, call_run.
    destruct (t v k u) as [u1 [x|e]].
    + destruct (IH u1) as (u' & c & Hrun & Hc).
      destruct (invoke_all t es u1) as [u1' cs]. cbn [fst snd existsb threw] in *.
      rewrite JS_bind_run, Hrun. destruct c as [xs|e]; by eexists _, _.
    + destruct (invoke_all t es u1) as [u1' cs]. by eexists _, _.
Qed.

Lemma allSettledMap_settles_at {R}
    (t : V → K → callback W E (MaybePromise E R)) M u :
  Map_wf M →
  Map_keys (map_obj (env (World M (invoke_all t M u).1))) = Map_keys M →
  forallb (λ c, negb (threw c)) (invoke_all t M u).2 = true →
  allSettledMap env t (World M u)
    = (env (World M (invoke_all t M u).1),
       fulfilled (zip (Map_keys M)
                    (Some <$> (call_result <$> (invoke_all t M u).2)))).
Proof.
  intros Hwf Henv Hthrow.
  destruct (Array_from_calls t M M u Hthrow) as (xs & Hxs & Hrun).
  rewrite (proj1 (allSettledMap_run env t M u _ _ Hrun)).
  rewrite Henv. do 2 f_equal.
  assert (Hres : outcome ∘ Promise_resolve <$> xs
                 = call_result <$> (invoke_all t M u).2).
  { by rewrite Hxs, <- list_fmap_compose. }
  rewrite Hres. apply zip_outcomes_wf; [done |].
  rewrite length_fmap, invoke_all_length. unfold Map_keys.
  by rewrite length_fmap.
Qed.

(** X7.  On a transform that returns plain values and never throws,
    [transformMapAsync] resolves with the very map that [transformMap]
    returns for it. *)
Theorem transformMapAsync_agrees_with_transformMap {R} (f : V → K → R) M u :
  Map_wf M →
  ∃ out,
    transformMap (E:=E) (λ v k, total (f v k)) (World M u)
      = (World M u, Normal out)
    ∧ transformMapAsync (E:=E) env (λ v k, total (Plain (f v k))) (World M u)
      = (env (World M u), fulfilled out).
Proof.
  intros Hwf. eexists. split; [by apply transformMap_run_total |].
  rewrite (transformMapAsync_success _ M u ((λ '(k, v), f v k) <$> M)).
  - rewrite invoke_all_total, zip_keys_values. cbn [fst]. do 2 f_equal.
    apply Map_new_wf. unfold Map_wf. by rewrite Map_keys_transform.
  - rewrite invoke_all_total. cbn [snd]. rewrite <- !list_fmap_compose.
    apply list_fmap_ext. by intros _ [k v] _.
Qed.

(** X13.  For a transform whose promises all settle, [transformMapAsync]
    is all or nothing: its promise is fulfilled with a map exactly when no
    invocation fails, and rejected exactly when some invocation fails. *)
Theorem transformMapAsync_fulfilled_iff {R}
    (t : V → K → callback W E (MaybePromise E R)) M u :
  ((∃ out, (transformMapAsync env t (World M u)).2 = fulfilled out)
   ↔ existsb failed (invoke_all t M u).2 = false)
  ∧ ((∃ e, (transformMapAsync env t (World M u)).2 = rejected e)
     ↔ existsb failed (invoke_all t M u).2 = true).
Proof.
  destruct (existsb failed (invoke_all t M u).2) eqn:Hfail.
  - destruct (transformMapAsync_failure t M u Hfail) as [e ->]. cbn [snd].
    split; split; try done; [by intros [? ?] | by eexists].
  - destruct (failed_false_results _ Hfail) as [rs Hrs].
    rewrite (transformMapAsync_success t M u rs Hrs). cbn [snd].
    split; split; try done; [by eexists | by intros [? ?]].
Qed.

(** X9.  The promise of [allSettledMap] is rejected exactly when some
    invocation of the transform throws synchronously, whatever happens to
    the map meanwhile; invocations that return rejecting promises never
    reject it. *)
Theorem allSettledMap_rejected_iff_throw {R}
    (t : V → K → callback W E (MaybePromise E R)) M u :
  (∃ e, (allSettledMap env t (World M u)).2 = rejected e)
  ↔ existsb threw (invoke_all t M u).2 = true.
Proof.
  destruct (Array_from_calls_threw t M M u) as (u' & c & Hrun & <-).
  rewrite (proj1 (allSettledMap_run env t M u u' c Hrun)).
  destruct c as [xs|e]; cbn [snd threw]; split; try done.
  - by intros [? ?].
  - by eexists.
Qed.

(** X10.  Take a transform that leaves the map alone (as every [callback]
    does), never throws synchronously and returns only promises that
    settle, and a map whose key sequence is, when the function resumes
    after its suspension, what it was at the call.  Then [allSettledMap]
    resolves with the keys of the input in their order, and under the key
    at position [i] the outcome of the invocation for that entry: fulfilled
    with its value or rejected with its reason. *)
Theorem allSettledMap_fail_tolerant {R}
    (t : V → K → callback W E (MaybePromise E R)) M u :
  Map_wf M →
  Map_keys (map_obj (env (World M (invoke_all t M u).1))) = Map_keys M →
  forallb (λ c, negb (threw c)) (invoke_all t M u).2 = true →
  let outs := call_result <$> (invoke_all t M u).2 in
  let out := zip (Map_keys M) (Some <$> outs) in
  allSettledMap env t (World M u)
    = (env (World M (invoke_all t M u).1), fulfilled out)
  ∧ Map_keys out = Map_keys M
  ∧ ∀ i k, Map_keys M !! i = Some k → Map_get out k = Some <$> outs !! i.
Proof.
  intros Hwf Henv Hthrow outs out. split_and!.
  - by apply allSettledMap_settles_at.
  - unfold Map_keys at 1. apply fst_zip. unfold outs, Map_keys.
    by rewrite !length_fmap, invoke_all_length.
  - intros i k Hi. unfold out. rewrite (Map_get_zip _ _ i) by done.
    by rewrite list_lookup_fmap.
Qed.

(** X12.  [allSettledMap] pairs keys and outcomes by position, with the
    keys as they are after the suspension: when no invocation throws, the
    key at position [i] of the map as the rest of the program left it gets
    the outcome of the [i]-th scheduled invocation, and [undefined] when
    fewer than [i + 1] invocations were scheduled. *)
Theorem allSettledMap_zips_by_position {R}
    (t : V → K → callback W E (MaybePromise E R)) M u :
  forallb (λ c, negb (threw c)) (invoke_all t M u).2 = true →
  Map_wf (map_obj (env (World M (invoke_all t M u).1))) →
  let outs := call_result <$> (invoke_all t M u).2 in
  allSettledMap env t (World M u)
  = (env (World M (invoke_all t M u).1),
     fulfilled (imap (λ i k, (k, outs !! i))
                  (Map_keys (map_obj (env (World M (invoke_all t M u).1)))))).
Proof.
  intros Hthrow Hwf outs.
  destruct (Array_from_calls t M M u Hthrow) as (xs & Hxs & Hrun).
  rewrite (proj1 (allSettledMap_run env t M u _ _ Hrun)). do 2 f_equal.
  assert (Hres : outcome ∘ Promise_resolve <$> xs = outs).
  { unfold outs. by rewrite Hxs, <- list_fmap_compose. }
  rewrite Hres. unfold zip_outcomes.
  exact (foldl_zip_outcomes _ outs id [] Hwf).
Qed.

(** X8.  Take a transform that leaves the map alone (as every [callback]
    does) and a map whose key sequence is, when the function resumes after
    its suspension, what it was at the call.  Whenever [transformMapAsync]
    is fulfilled with a map, [allSettledMap] is fulfilled for the same
    transform with the same keys in the same order, each value [r] wrapped
    as the record [fulfilled r]. *)
Theorem allSettledMap_of_successes {R}
    (t : V → K → callback W E (MaybePromise E R)) M u
    (out : list (K * R)) :
  Map_wf M →
  Map_keys (map_obj (env (World M (invoke_all t M u).1))) = Map_keys M →
  (transformMapAsync env t (World M u)).2 = fulfilled out →
  allSettledMap env t (World M u)
  = (env (World M (invoke_all t M u).1),
     fulfilled ((λ '(k, r), (k, Some (fulfilled r))) <$> out)).
Proof.
  intros Hwf Henv Hout.
  destruct (existsb failed (invoke_all t M u).2) eqn:Hfail.
  { destruct (transformMapAsync_failure t M u Hfail) as [e He].
    rewrite He in Hout. done. }
  destruct (failed_false_results _ Hfail) as [rs Hrs].
  rewrite (transformMapAsync_success t M u rs Hrs) in Hout.
  cbn [snd] in Hout. injection Hout as <-.
  rewrite allSettledMap_settles_at by (done || by apply failed_false_no_throw).
  rewrite Hrs. do 2 f_equal.
  assert (Hlen : length (Map_keys M) = length rs).
  { apply (f_equal length) in Hrs. rewrite !length_fmap in Hrs.
    rewrite <- Hrs, invoke_all_length. unfold Map_keys. by rewrite length_fmap. }
  rewrite Map_new_wf.
  2:{ unfold Map_wf, Map_keys at 1. rewrite fst_zip; [done | lia]. }
  rewrite <- list_fmap_compose. apply zip_fmap_values.
Qed.
End AsyncMore.

Section InvocationOrder.
Context {K V W E : Type} `{EqDecision K}.

Lemma invoke_all_logged {A} (t : V → K → callback W E A)
    (es l : list (K * V)) (u : W) :
  (invoke_all (logged t) es (l, u)).1.1 = l ++ es.
Proof.
  revert l u. induction es as [|[k v] es IH]; intros l u; cbn [invoke_all].
  - by rewrite app_nil_r.
  - unfold logged at 1. cbn [fst snd]. destruct (t v k u) as [u1 c].
    specialize (IH (l ++ [(k, v)]) u1).
    destruct (invoke_all (logged t) es (l ++ [(k, v)], u1)) as [[l' u'] cs].
    cbn [fst snd] in *. by rewrite IH, <- app_assoc.
Qed.

(** X11.  [transformMapAsync] calls the transform exactly once per entry,
    on that entry's value and key, in the iteration order of the map and
    before it suspends, whether or not invocations fail: a transform that
    records its calls has recorded the entries of the map, in order, when
    the rest of the program gets to run. *)
Theorem transformMapAsync_invokes_each_entry_once {R}
    (env : world K V (list (K * V) * W) → world K V (list (K * V) * W))
    (t : V → K → callback W E (MaybePromise E R))
    (M l : list (K * V)) (u : W) :
  ∃ u' r,
    transformMapAsync env (logged t) (World M (l, u))
    = (env (World M (l ++ M, u')), r).
Proof.
  rewrite transformMapAsync_run.
  pose proof (invoke_all_logged t M l u) as Hlog.
  destruct (invoke_all (logged t) M (l, u)) as [[l' u'] cs].
  cbn [fst snd] in *. subst l'. by eexists _, _.
Qed.
End InvocationOrder.

(** ** Further scenarios *)

Section MoreScenarios.
Import Scenario.

(** The transform throws on [b]: [a] and [b] are visited, [c] is not. *)
Lemma transformMap_throw_aborts_witness :
  forallb (λ c, negb (threw c))
    (invoke_all times_ten_throws_on_b [("a", 1)] []).2 = true
  ∧ (times_ten_throws_on_b 2 "b"
       (invoke_all times_ten_throws_on_b [("a", 1)] []).1).2 = Throw "boom"
  ∧ transformMap times_ten_throws_on_b (World M_abc [])
    = (World M_abc ["a"; "b"], Throw "boom").
Proof.
  split; [reflexivity |]. split; [reflexivity |].
  exact (transformMap_throw_aborts times_ten_throws_on_b
           [("a", 1)] "b" 2 [("c", 3)] [] "boom" eq_refl eq_refl).
Defined.

Lemma filterMap_throw_aborts_witness :
  forallb (λ c, negb (threw c))
    (invoke_all even_throws_on_b [("a", 1)] []).2 = true
  ∧ (even_throws_on_b 2 "b"
       (invoke_all even_throws_on_b [("a", 1)] []).1).2 = Throw "boom"
  ∧ filterMap even_throws_on_b (World M_abc [])
    = (World M_abc ["a"; "b"], Throw "boom").
Proof.
  split; [reflexivity |]. split; [reflexivity |].
  exact (filterMap_throw_aborts even_throws_on_b
           [("a", 1)] "b" 2 [("c", 3)] [] "boom" eq_refl eq_refl).
Defined.

Lemma transformMap_compose_witness :
  Map_wf M_abc
  ∧ ∃ mid,
      transformMap (E:=string) (λ v _, total (v * 10)) (World M_abc ([] : log))
        = (World M_abc [], Normal mid)
      ∧ (transformMap (E:=string) (λ r _, total (Nat.even r))
           (World mid ([] : log))).2
        = (transformMap (E:=string) (λ v _, total (Nat.even (v * 10)))
             (World M_abc ([] : log))).2.
Proof.
  split; [exact Map_wf_abc |].
  exact (transformMap_compose (λ v _, v * 10) (λ r _, Nat.even r)
           M_abc [] Map_wf_abc).
Defined.

Lemma filterMap_compose_witness :
  Map_wf M_abc
  ∧ ∃ mid,
      filterMap (E:=string) (λ v _, total (Nat.even v)) (World M_abc ([] : log))
        = (World M_abc [], Normal mid)
      ∧ (filterMap (E:=string) (λ v _, total (Nat.ltb 1 v))
           (World mid ([] : log))).2
        = (filterMap (E:=string) (λ v _, total (Nat.even v && Nat.ltb 1 v))
             (World M_abc ([] : log))).2
      ∧ (filterMap (E:=string) (λ v _, total (Nat.even v))
           (World mid ([] : log))).2 = Normal mid.
Proof.
  split; [exact Map_wf_abc |].
  exact (filterMap_compose (λ v _, Nat.even v) (λ v _, Nat.ltb 1 v)
           M_abc [] Map_wf_abc).
Defined.

Lemma getOrDefault_frame_witness :
  ∃ M' r,
    getOrDefault (E:=string) "d" 4 (World M_abc ([] : log))
      = (World M' [], Normal r)
    ∧ (∀ k', k' ≠ "d" → Map_get M' k' = Map_get M_abc k')
    ∧ (∀ k', Map_has M_abc k' = true → Map_has M' k' = true)
    ∧ length M_abc ≤ length M' ≤ S (length M_abc)
    ∧ (Map_wf M_abc → Map_wf M').
Proof. exact (getOrDefault_frame M_abc [] "d" 4). Defined.

Lemma transformMapAsync_agrees_with_transformMap_witness :
  Map_wf M_abc
  ∧ ∃ out,
      transformMap (E:=string) (λ v _, total (v * 10)) (World M_abc ([] : log))
        = (World M_abc [], Normal out)
      ∧ transformMapAsync (E:=string) quiet (λ v _, total (Plain (v * 10)))
          (World M_abc ([] : log))
        = (quiet (World M_abc []), fulfilled out).
Proof.
  split; [exact Map_wf_abc |].
  exact (transformMapAsync_agrees_with_transformMap quiet (λ v _, v * 10)
           M_abc [] Map_wf_abc).
Defined.

Lemma allSettledMap_of_successes_witness :
  Map_wf M_ab
  ∧ Map_keys (map_obj (quiet (World M_ab (invoke_all slow_a_fast_b M_ab []).1)))
    = Map_keys M_ab
  ∧ (transformMapAsync quiet slow_a_fast_b (World M_ab [])).2
    = fulfilled [("a", 10); ("b", 20)]
  ∧ allSettledMap quiet slow_a_fast_b (World M_ab [])
    = (World M_ab ["a"; "b"],
       fulfilled [("a", Some (fulfilled 10)); ("b", Some (fulfilled 20))]).
Proof.
  split; [exact Map_wf_ab |]. split; [reflexivity |]. split; [reflexivity |].
  exact (allSettledMap_of_successes quiet slow_a_fast_b M_ab []
           [("a", 10); ("b", 20)] Map_wf_ab eq_refl eq_refl).
Defined.

Lemma allSettledMap_fail_tolerant_witness :
  Map_wf M_ab
  ∧ Map_keys (map_obj (quiet (World M_ab (invoke_all delayed_or_boom M_ab []).1)))
    = Map_keys M_ab
  ∧ forallb (λ c, negb (threw c)) (invoke_all delayed_or_boom M_ab []).2 = true
  ∧ allSettledMap quiet delayed_or_boom (World M_ab [])
    = (World M_ab ["a"; "b"],
       fulfilled [("a", Some (fulfilled 10)); ("b", Some (rejected "boom"))]).
Proof.
  split; [exact Map_wf_ab |]. split; [reflexivity |]. split; [reflexivity |].
  exact (proj1 (allSettledMap_fail_tolerant quiet delayed_or_boom M_ab []
                  Map_wf_ab eq_refl eq_refl)).
Defined.

Lemma Map_wf_abz : Map_wf [("a", 1); ("b", 2); ("z", 26)].
Proof. unfold Map_wf. apply (bool_decide_unpack _). by vm_compute. Qed.

(** A key set during the suspension has no scheduled invocation: it is
    stored with [undefined]. *)
Lemma allSettledMap_zips_by_position_witness :
  forallb (λ c, negb (threw c)) (invoke_all delayed_or_boom M_ab []).2 = true
  ∧ Map_wf (map_obj (sets_z (World M_ab (invoke_all delayed_or_boom M_ab []).1)))
  ∧ allSettledMap sets_z delayed_or_boom (World M_ab [])
    = (World [("a", 1); ("b", 2); ("z", 26)] ["a"; "b"],
       fulfilled [("a", Some (fulfilled 10)); ("b", Some (rejected "boom"));
                  ("z", None)]).
Proof.
  split; [reflexivity |]. split; [exact Map_wf_abz |].
  exact (allSettledMap_zips_by_position sets_z delayed_or_boom M_ab []
           eq_refl Map_wf_abz).
Defined.
End MoreScenarios.
